(** * useRefCallback: the cleanup registry behind a React ref callback

    A shallow embedding of [src/useRefCallback.ts].  The hook keeps a
    [Map<string, VoidFunction>] in a [useRef] cell and hands out, through
    [useCallback], a closure [(node, nodeId = 'single') => ...] that runs
    the caller's effect when a node is attached and the stored cleanup when
    the node is detached.

    The closure is written in a small state-and-exception monad: the state
    holds the map, the caller's world (whatever the effect and the cleanups
    read and write) and a ghost trace of the calls into caller code. *)

From stdpp Require Import gmap strings list fin_maps.

Open Scope string_scope.
Open Scope list_scope.

(** ** JavaScript values that the closure inspects *)

(** A function object is known by its identity. *)
Definition FnRef := nat.

(** [RefCallbackEffect<T> = (node: T) => VoidFunction | void]. *)
Inductive JsVal : Type :=
| VUndefined
| VFunction (f : FnRef).

(** How a call ends: it returns, or it throws. *)
Inductive Completion (E A : Type) : Type :=
| Normal (a : A)
| Throw (e : E).
Arguments Normal {E A} a.
Arguments Throw {E A} e.

Section Tracker.

(** [NodeT extends HTMLElement]: a node is an object, hence truthy, and
    [NodeT | null] is [option Node]. *)
Context {Node : Type}.
(** Whatever caller code throws. *)
Context {Exn : Type}.
(** The caller's world: the state that effects and cleanups act on. *)
Context {W : Type}.

(** Calling the function object [f] with no argument.  Caller code does
    not call back into the ref callback while it runs. *)
Variable callFn : FnRef → W → W * Completion Exn unit.

(** The [effect] argument of the hook. *)
Definition Effect : Type := Node → W → W * Completion Exn JsVal.

(** Ghost record of one call into caller code, tagged with the identifier
    of the ref-callback call that made it. *)
Inductive Event : Type :=
| EvEffect (nodeId : string) (node : Node) (out : Completion Exn JsVal)
| EvCleanup (nodeId : string) (f : FnRef) (out : Completion Exn unit).

Record State : Type := mkState {
  cleanupsMap : gmap string FnRef;   (* cleanupsMap.current *)
  world : W;
  trace : list Event
}.

(** *** The monad *)

Definition M (A : Type) : Type := State → State * Completion Exn A.

Definition ret {A} (a : A) : M A := λ s, (s, Normal a).

Definition bind {A B} (m : M A) (k : A → M B) : M B :=
  λ s, match m s with
       | (s', Normal a) => k a s'
       | (s', Throw e) => (s', Throw e)
       end.

Notation "'let*' x ':=' m 'in' k" := (bind m (λ x, k))
  (at level 10, x name, m at level 100, k at level 200).
Notation "m ';;' k" := (bind m (λ _, k))
  (at level 100, k at level 200, right associativity).

(** [cleanupsMap.current.get(k)] *)
Definition map_get (k : string) : M (option FnRef) :=
  λ s, (s, Normal (cleanupsMap s !! k)).

(** [cleanupsMap.current.set(k, f)] *)
Definition map_set (k : string) (f : FnRef) : M unit :=
  λ s, (mkState (<[k := f]> (cleanupsMap s)) (world s) (trace s), Normal tt).

(** [cleanupsMap.current.delete(k)] *)
Definition map_delete (k : string) : M unit :=
  λ s, (mkState (delete k (cleanupsMap s)) (world s) (trace s), Normal tt).

(** [effect(node)] *)
Definition call_effect (effect : Effect) (nodeId : string) (node : Node)
  : M JsVal :=
  λ s, let '(w, out) := effect node (world s) in
       (mkState (cleanupsMap s) w (trace s ++ [EvEffect nodeId node out]),
        out).

(** [f()] *)
Definition call_cleanup (nodeId : string) (f : FnRef) : M unit :=
  λ s, let '(w, out) := callFn f (world s) in
       (mkState (cleanupsMap s) w (trace s ++ [EvCleanup nodeId f out]),
        out).

(** *** The closure handed to [useCallback]

<<
  (node: NodeT | null, nodeId = 'single') => {
    if (node) {
      const cleanupCallback = effect(node);
      if (typeof cleanupCallback === 'function') {
        cleanupsMap.current.set(nodeId, cleanupCallback);
      }
    } else {
      const currNodeCleanup = cleanupsMap.current.get(nodeId);
      if (currNodeCleanup) {
        currNodeCleanup();
        cleanupsMap.current.delete(nodeId);
      }
    }
  }
>>
*)
Definition refCallback (effect : Effect)
    (node : option Node) (nodeId : option string) : M unit :=
  let nodeId := default "single" nodeId in
  match node with
  | Some node =>
      let* cleanupCallback := call_effect effect nodeId node in
      match cleanupCallback with   (* typeof cleanupCallback === 'function' *)
      | VFunction f => map_set nodeId f
      | VUndefined => ret tt
      end
  | None =>
      let* currNodeCleanup := map_get nodeId in
      match currNodeCleanup with
      | Some f => call_cleanup nodeId f ;; map_delete nodeId
      | None => ret tt
      end
  end.

(** *** Sequences of calls made by the host *)

(** One call of a ref callback of the tracker.  Callbacks handed out at
    different renders capture different effects and share the map. *)
Record Call : Type := mkCall {
  call_effect_of : Effect;
  call_node : option Node;
  call_nodeId : option string
}.

(** The identifier a call works under. *)
Definition call_key (c : Call) : string := default "single" (call_nodeId c).

Definition step (s : State) (c : Call) : State :=
  (refCallback (call_effect_of c) (call_node c) (call_nodeId c) s).1.

(** The host goes on with the next call whether or not one threw. *)
Definition run (cs : list Call) (s : State) : State := foldl step s cs.

(** [useRef(new Map())] at the first render. *)
Definition init (w : W) : State := mkState ∅ w [].

(** The part of the trace that [s'] adds to [s]. *)
Definition events_since (s s' : State) : list Event :=
  drop (length (trace s)) (trace s').

(** *** Reading the trace *)

(** The identifier of the call that made the event. *)
Definition event_key (ev : Event) : string :=
  match ev with
  | EvEffect k _ _ => k
  | EvCleanup k _ _ => k
  end.

(** A node was attached under [K]: the effect was called for it. *)
Definition attach_under (K : string) (ev : Event) : Prop :=
  match ev with
  | EvEffect k _ _ => k = K
  | EvCleanup _ _ _ => False
  end.

(** A node was attached under [K] and the effect returned a function. *)
Definition stores_under (K : string) (ev : Event) : Prop :=
  match ev with
  | EvEffect k _ (Normal (VFunction _)) => k = K
  | _ => False
  end.

(** The effect returned the function [f], under whatever identifier. *)
Definition returns_fn (f : FnRef) (ev : Event) : Prop :=
  match ev with
  | EvEffect _ _ (Normal (VFunction g)) => g = f
  | _ => False
  end.

(** The function [f] was called as a cleanup, under whatever identifier. *)
Definition invokes (f : FnRef) (ev : Event) : Prop :=
  match ev with
  | EvCleanup _ g _ => g = f
  | EvEffect _ _ _ => False
  end.

(** A cleanup called under [K] returned (the delete follows it). *)
Definition completes_under (K : string) (ev : Event) : Prop :=
  match ev with
  | EvCleanup k _ (Normal _) => k = K
  | _ => False
  end.

(** The registry invariant in the words of the specification: the effect
    returned the cleanup [f] at the most recent attach of a node under
    [K], and [f] has not been invoked since. *)
Definition stated_pending (K : string) (tr : list Event) : Prop :=
  ∃ pre n f post,
    tr = pre ++ EvEffect K n (Normal (VFunction f)) :: post ∧
    Forall (λ ev, ¬ attach_under K ev) post ∧
    Forall (λ ev, ¬ invokes f ev) post.

Definition registry_invariant_stated (s : State) (K : string) : Prop :=
  is_Some (cleanupsMap s !! K) ↔ stated_pending K (trace s).

(** What the map holds: [f] was returned at the most recent attach under
    [K] at which the effect returned a function, and no cleanup called
    under [K] has returned since. *)
Definition pending_entry (K : string) (f : FnRef) (tr : list Event) : Prop :=
  ∃ pre n post,
    tr = pre ++ EvEffect K n (Normal (VFunction f)) :: post ∧
    Forall (λ ev, ¬ stores_under K ev ∧ ¬ completes_under K ev) post.

(** The map and the trace agree. *)
Definition registry_tracks_trace (s : State) : Prop :=
  ∀ K f, cleanupsMap s !! K = Some f ↔ pending_entry K f (trace s).

(** *** Two sentences of the specification, as they are written *)

(** [attach(node, id)], calls under other identifiers, [attach(null, id)]:
    the cleanup that the effect returned at the attach is invoked exactly
    once, by the detach, and the entry for [id] is gone afterwards. *)
Definition matching_detach_stated (s : State) (effect : Effect) (n : Node)
    (nodeId : option string) (middle : list Call) (effect' : Effect) : Prop :=
  let k := default "single" nodeId in
  let s1 := step s (mkCall effect (Some n) nodeId) in
  let s2 := run middle s1 in
  let s3 := step s2 (mkCall effect' None nodeId) in
  ∀ f w,
    effect n (world s) = (w, Normal (VFunction f)) →
    Forall (λ c, call_key c ≠ k) middle →
    Forall (λ ev, ¬ invokes f ev) (events_since s1 s2) ∧
    (∃ out, events_since s2 s3 = [EvCleanup k f out]) ∧
    cleanupsMap s3 !! k = None.

(** A second attach under an identifier that holds a cleanup: the new
    action takes the entry, and the cleanup that was stored is invoked
    neither by that call nor by any of the calls that follow. *)
Definition overwrite_stated (s : State) (effect : Effect) (n : Node)
    (nodeId : option string) (later : list Call) : Prop :=
  let k := default "single" nodeId in
  let s1 := step s (mkCall effect (Some n) nodeId) in
  ∀ f_old f_new w,
    cleanupsMap s !! k = Some f_old →
    effect n (world s) = (w, Normal (VFunction f_new)) →
    cleanupsMap s1 !! k = Some f_new ∧
    Forall (λ ev, ¬ invokes f_old ev) (events_since s (run later s1)).

(** *** Counting calls *)

Definition is_effect_event (ev : Event) : bool :=
  match ev with
  | EvEffect _ _ _ => true
  | EvCleanup _ _ _ => false
  end.

Definition is_cleanup_event (ev : Event) : bool :=
  match ev with
  | EvCleanup _ _ _ => true
  | EvEffect _ _ _ => false
  end.

(** The effect returned a function: the closure stored it. *)
Definition is_store_event (ev : Event) : bool :=
  match ev with
  | EvEffect _ _ (Normal (VFunction _)) => true
  | _ => false
  end.

(** A cleanup returned: the closure deleted its entry. *)
Definition is_completed_event (ev : Event) : bool :=
  match ev with
  | EvCleanup _ _ (Normal _) => true
  | _ => false
  end.

Definition count_events (p : Event → bool) (tr : list Event) : nat :=
  length (List.filter p tr).

(** The call passes a node. *)
Definition is_attach (c : Call) : bool :=
  match call_node c with
  | Some _ => true
  | None => false
  end.

Definition count_calls (p : Call → bool) (cs : list Call) : nat :=
  length (List.filter p cs).

(** An effect without cleanup: whatever the node and the world, it does
    not return a function. *)
Definition never_returns_function (effect : Effect) : Prop :=
  ∀ n w f, (effect n w).2 ≠ Normal (VFunction f).

End Tracker.

(** * The hook: one render of [useRefCallback(effect, deps)]

<<
    const cleanupsMap = useRef(new Map<string, VoidFunction>());
    return useCallback((node, nodeId = 'single') => { ... }, [effect, ...deps]);
>>
*)

Section Hooks.

(** What a dependency list holds: values compared by identity
    ([Object.is]).  The effect is one of them. *)
Context {Val : Type} `{EqDecision Val}.

(** The closure that a render builds: a new function object, which
    captures the [effect] of that render (and the ref object, which is the
    same at every render). *)
Record Callback : Type := mkCallback {
  cb_id : FnRef;
  cb_effect : Val
}.

(** The hook cells of one component instance, and the identity that the
    next function object gets. *)
Record Hooks : Type := mkHooks {
  ref_cell : option (gmap string FnRef);
  memo_cell : option (Callback * list Val);
  next_fn : FnRef
}.

(** Modelled from the spec: React's [useRef] is not under src/.  The cell
    takes the initial value at the first render and keeps what it holds at
    every later one (the registry is a "per-tracker-instance mutable map
    whose lifetime is scoped to the tracker instance"). *)
Definition useRef {A} (initial : A) (cell : option A) : A * option A :=
  match cell with
  | Some current => (current, cell)
  | None => (initial, Some initial)
  end.

(** Modelled from the spec: React's comparison of dependency lists is not
    under src/.  The comparison is "by reference/identity per element",
    "mirroring the host framework's dependency-comparison convention
    exactly": the host compares, by identity, the elements at the indices
    that both lists have, and finds the lists equal when none of these
    differs. *)
Fixpoint areHookInputsEqual (nextDeps prevDeps : list Val) : bool :=
  match nextDeps, prevDeps with
  | x :: nextDeps, y :: prevDeps =>
      bool_decide (x = y) && areHookInputsEqual nextDeps prevDeps
  | _, _ => true
  end.

(** Modelled from the spec: React's [useCallback] is not under src/.  The
    dependency list "determines whether a previously created callback must
    be discarded and a new one produced"; a callback that is kept stays in
    the cell with the list it was created with. *)
Definition useCallback (fn : Callback) (deps : list Val)
    (cell : option (Callback * list Val))
  : Callback * option (Callback * list Val) :=
  match cell with
  | Some (prevFn, prevDeps) =>
      if areHookInputsEqual deps prevDeps then (prevFn, cell)
      else (fn, Some (fn, deps))
  | None => (fn, Some (fn, deps))
  end.

Definition useRefCallback (effect : Val) (deps : list Val) (h : Hooks)
  : Callback * Hooks :=
  let cleanupsMap := useRef ∅ (ref_cell h) in
  let fn := mkCallback (next_fn h) effect in
  let cb := useCallback fn (effect :: deps) (memo_cell h) in
  (cb.1, mkHooks cleanupsMap.2 cb.2 (S (next_fn h))).

(** Before the first render. *)
Definition mount : Hooks := mkHooks None None 0.

Definition render (h : Hooks) (r : Val * list Val) : Hooks :=
  (useRefCallback r.1 r.2 h).2.

Definition renders (rs : list (Val * list Val)) : Hooks := foldl render mount rs.



(** The memoised callback captured the effect that heads the memoised
    dependency list. *)
Definition memo_effect (h : Hooks) : Prop :=
  ∀ cb deps, memo_cell h = Some (cb, deps) → head deps = Some (cb_effect cb).

End Hooks.

(** * A concrete caller *)

Module Example.

(** Nodes are numbered, and the world is the log of the cleanups that
    were called.  The effect throws for node 0, returns nothing for
    node 1, returns function 0 for node 2, the one function 7 for nodes 3
    and 4, and function 8 for every other node. *)
Definition effect (n : nat) (log : list FnRef)
  : list FnRef * Completion string JsVal :=
  (log,
   match n with
   | 0 => Throw "effect failed"
   | 1 => Normal VUndefined
   | 2 => Normal (VFunction 0)
   | 3 | 4 => Normal (VFunction 7)
   | _ => Normal (VFunction 8)
   end).

(** Function 0 throws; every other function returns. *)
Definition callFn (f : FnRef) (log : list FnRef)
  : list FnRef * Completion string unit :=
  (log ++ [f],
   match f with
   | 0 => Throw "cleanup failed"
   | _ => Normal tt
   end).

Definition attach (n : nat) (id : string) : @Call nat string (list FnRef) :=
  mkCall effect (Some n) (Some id).

Definition detach (id : string) : @Call nat string (list FnRef) :=
  mkCall effect None (Some id).

(** The first render, nothing logged. *)
Definition start : @State nat string (list FnRef) := init [].

(** An effect that only sets the node up and returns nothing. *)
Definition position_child (n : nat) (log : list FnRef)
  : list FnRef * Completion string JsVal :=
  (log, Normal VUndefined).

End Example.

(** * Properties of the ref callback *)

Section TrackerFacts.

Context {Node Exn W : Type}.
Variable callFn : FnRef → W → W * Completion Exn unit.

Local Abbreviation Effect := (@Effect Node Exn W).
Local Abbreviation State := (@State Node Exn W).
Local Abbreviation Call := (@Call Node Exn W).
Local Abbreviation Event := (@Event Node Exn).
Local Abbreviation refCallback := (refCallback callFn).
Local Abbreviation step := (step callFn).
Local Abbreviation run := (run callFn).

Implicit Types (s : State) (c : Call) (cs : list Call) (effect : Effect).
Implicit Types (n : Node) (f : FnRef) (K k : string) (e : Exn).
Implicit Types (nodeId : option string) (tr : list Event) (ev : Event).

(** ** The two branches of the closure, as equations *)

Lemma refCallback_attach effect n nodeId s :
  refCallback effect (Some n) nodeId s =
  let k := default "single" nodeId in
  let tr out := trace s ++ [EvEffect k n out] in
  match effect n (world s) with
  | (w, Normal (VFunction f) as out) =>
      (mkState (<[k := f]> (cleanupsMap s)) w (tr out), Normal tt)
  | (w, Normal VUndefined as out) =>
      (mkState (cleanupsMap s) w (tr out), Normal tt)
  | (w, Throw e as out) =>
      (mkState (cleanupsMap s) w (tr out), Throw e)
  end.
Proof.
  unfold refCallback, bind, call_effect, map_set, ret; simpl.
  destruct (effect n (world s)) as [w [[|f]|e]]; reflexivity.
Qed.

Lemma refCallback_detach effect nodeId s :
  refCallback effect None nodeId s =
  let k := default "single" nodeId in
  match cleanupsMap s !! k with
  | None => (s, Normal tt)
  | Some f =>
      let tr out := trace s ++ [EvCleanup k f out] in
      match callFn f (world s) with
      | (w, Normal _ as out) =>
          (mkState (delete k (cleanupsMap s)) w (tr out), Normal tt)
      | (w, Throw e as out) =>
          (mkState (cleanupsMap s) w (tr out), Throw e)
      end
  end.
Proof.
  unfold refCallback, bind, map_get, call_cleanup, map_delete, ret; simpl.
  destruct (cleanupsMap s !! default "single" nodeId) as [f|]; [|reflexivity].
  destruct (callFn f (world s)) as [w [[]|e]]; reflexivity.
Qed.

Lemma events_since_app s tr' (m : gmap string FnRef) (w : W) :
  events_since s (mkState m w (trace s ++ tr')) = tr'.
Proof. unfold events_since; simpl. apply drop_app_length. Qed.

Lemma events_since_refl s : events_since s s = [].
Proof. unfold events_since. apply drop_all. Qed.

(** ** Calls under other identifiers *)

Lemma step_attach effect n nodeId s :
  step s (mkCall effect (Some n) nodeId) =
  (refCallback effect (Some n) nodeId s).1.
Proof. reflexivity. Qed.

Lemma step_detach effect nodeId s :
  step s (mkCall effect None nodeId) = (refCallback effect None nodeId s).1.
Proof. reflexivity. Qed.

(** A detach that finds [f] calls it: the world and the completion of the
    call are those of [f()]. *)
Lemma detach_result effect nodeId s f :
  cleanupsMap s !! default "single" nodeId = Some f →
  let r := refCallback effect None nodeId s in
  let out := callFn f (world s) in
  events_since s r.1 = [EvCleanup (default "single" nodeId) f out.2] ∧
  world r.1 = out.1 ∧
  r.2 = out.2 ∧
  cleanupsMap r.1 = match out.2 with
                    | Normal _ => delete (default "single" nodeId) (cleanupsMap s)
                    | Throw _ => cleanupsMap s
                    end.
Proof.
  intros Hf. cbn zeta. rewrite refCallback_detach; cbn zeta. rewrite Hf.
  destruct (callFn f (world s)) as [w [[]|e]]; cbn [fst snd world cleanupsMap];
    by rewrite events_since_app.
Qed.

(** Every call extends the trace, by events made under its identifier. *)
Lemma trace_step s c :
  trace (step s c) = trace s ++ events_since s (step s c) ∧
  Forall (λ ev, event_key ev = call_key c) (events_since s (step s c)).
Proof.
  destruct c as [effect [n|] nodeId]; unfold call_key; cbn [call_nodeId].
  - rewrite step_attach, refCallback_attach.
    destruct (effect n (world s)) as [w [[|f]|e]]; cbn [fst trace];
      rewrite events_since_app; repeat constructor.
  - rewrite step_detach, refCallback_detach; cbn zeta.
    destruct (cleanupsMap s !! default "single" nodeId) as [f|].
    + destruct (callFn f (world s)) as [w [[]|e]]; cbn [fst trace];
        rewrite events_since_app; repeat constructor.
    + cbn [fst]. rewrite events_since_refl, app_nil_r. by constructor.
Qed.

Lemma trace_run cs s :
  trace (run cs s) = trace s ++ events_since s (run cs s).
Proof.
  revert s; induction cs as [|c cs IH]; intros s; simpl.
  - by rewrite events_since_refl, app_nil_r.
  - rewrite IH. destruct (trace_step s c) as [Hc _].
    unfold events_since at 2. rewrite IH, Hc, <- app_assoc.
    by rewrite drop_app_length.
Qed.

Lemma events_since_run_cons c cs s :
  events_since s (run (c :: cs) s) =
  events_since s (step s c) ++ events_since (step s c) (run cs (step s c)).
Proof.
  simpl. unfold events_since at 1.
  rewrite (trace_run cs (step s c)).
  destruct (trace_step s c) as [-> _].
  by rewrite <- app_assoc, drop_app_length.
Qed.

(** A call under another identifier leaves the entry for [K] alone. *)
Lemma step_other_key s c K :
  call_key c ≠ K → cleanupsMap (step s c) !! K = cleanupsMap s !! K.
Proof.
  destruct c as [effect [n|] nodeId]; unfold call_key; cbn [call_nodeId];
    intros Hk.
  - rewrite step_attach, refCallback_attach.
    destruct (effect n (world s)) as [w [[|f]|e]]; cbn; try done.
    by rewrite lookup_insert_ne.
  - rewrite step_detach, refCallback_detach; cbn zeta.
    destruct (cleanupsMap s !! default "single" nodeId) as [f|]; [|done].
    destruct (callFn f (world s)) as [w [[]|e]]; cbn; try done.
    by rewrite lookup_delete_ne.
Qed.

Lemma run_other_keys cs s K :
  Forall (λ c, call_key c ≠ K) cs →
  cleanupsMap (run cs s) !! K = cleanupsMap s !! K ∧
  Forall (λ ev, event_key ev ≠ K) (events_since s (run cs s)).
Proof.
  intros Hcs; revert s; induction Hcs as [|c cs Hc _ IH]; intros s.
  - simpl. by rewrite events_since_refl.
  - rewrite events_since_run_cons. simpl.
    destruct (IH (step s c)) as [-> Hev]. split.
    + by apply step_other_key.
    + apply Forall_app; split; [|done].
      destruct (trace_step s c) as [_ Hk].
      eapply Forall_impl; [exact Hk|]. simpl. congruence.
Qed.

(** A detach never creates an entry. *)
Lemma step_detach_None s c K :
  call_node c = None →
  cleanupsMap s !! K = None → cleanupsMap (step s c) !! K = None.
Proof.
  destruct c as [effect node nodeId]; cbn [call_node]; intros -> HK.
  rewrite step_detach, refCallback_detach; cbn zeta.
  destruct (cleanupsMap s !! default "single" nodeId) as [f|]; [|done].
  destruct (callFn f (world s)) as [w [[]|e]]; cbn; [|done].
  rewrite lookup_delete. by case_decide.
Qed.

(** No attach under [K], no entry for [K]. *)
Lemma never_attached_unregistered cs s K :
  cleanupsMap s !! K = None →
  Forall (λ c, call_key c = K → call_node c = None) cs →
  cleanupsMap (run cs s) !! K = None.
Proof.
  intros Hs Hcs; revert s Hs; induction Hcs as [|c cs Hc _ IH]; intros s Hs.
  - done.
  - simpl. apply IH. destruct (decide (call_key c = K)) as [Heq|Hne].
    + by apply step_detach_None; [apply Hc|].
    + by rewrite step_other_key.
Qed.

(** ** Detaching what is not registered *)

(** C4. For an identifier with no entry in the registry, and so for one
    under which no node was ever attached, [attach(null, id)] does
    nothing: it calls neither an effect nor a cleanup, changes neither the
    registry nor anything else, and returns without throwing. *)
Theorem detach_unregistered_noop effect nodeId s :
  cleanupsMap s !! default "single" nodeId = None ∨
  (∃ cs w, s = run cs (init w) ∧
     Forall (λ c, call_key c = default "single" nodeId → call_node c = None)
            cs) →
  refCallback effect None nodeId s = (s, Normal tt).
Proof.
  intros H. assert (cleanupsMap s !! default "single" nodeId = None) as Hk.
  { destruct H as [H|(cs & w & -> & Hcs)]; [done|].
    by apply never_attached_unregistered. }
  rewrite refCallback_detach; simpl. by rewrite Hk.
Qed.

(** ** Single-node mode *)

(** C5. A call without identifier works under ["single"]: it is the call
    with identifier ["single"], and [attach(nodeA)] followed by
    [attach(null)] calls exactly the cleanup that the effect returned for
    [nodeA], as [attach(nodeA, "single")] followed by
    [attach(null, "single")] does.  The detach leaves the world as that
    cleanup leaves it and completes as the cleanup completes. *)
Theorem single_node_sentinel effect effect' nodeA f w s :
  effect nodeA (world s) = (w, Normal (VFunction f)) →
  let s1 := step s (mkCall effect (Some nodeA) None) in
  let s2 := step s1 (mkCall effect' None None) in
  (∀ eff node s0,
     refCallback eff node None s0 = refCallback eff node (Some "single") s0) ∧
  cleanupsMap s1 !! "single" = Some f ∧
  events_since s1 s2 = [EvCleanup "single" f (callFn f w).2] ∧
  world s2 = (callFn f w).1 ∧
  (refCallback effect' None None s1).2 = (callFn f w).2 ∧
  s2 = run [mkCall effect (Some nodeA) (Some "single");
            mkCall effect' None (Some "single")] s.
Proof.
  intros Heff s1 s2. split; [done|].
  assert (cleanupsMap s1 !! "single" = Some f ∧ world s1 = w) as [Hs1 Hw].
  { subst s1. rewrite step_attach, refCallback_attach, Heff; simpl.
    by rewrite lookup_insert_eq. }
  split; [done|].
  destruct (detach_result effect' None s1 f Hs1) as (Hev & Hworld & Hout & _).
  rewrite Hw in Hev, Hworld, Hout. by repeat split.
Qed.

(** ** Exceptions *)

(** C7. An exception thrown by the effect, or by the stored cleanup, is
    the completion of the call, unchanged; the call made exactly that one
    call into caller code, so nothing was retried, and nothing ran after
    the throw. *)
Theorem throw_propagates effect nodeId s e :
  let k := default "single" nodeId in
  (∀ n w,
     effect n (world s) = (w, Throw e) →
     refCallback effect (Some n) nodeId s =
     (mkState (cleanupsMap s) w (trace s ++ [EvEffect k n (Throw e)]),
      Throw e)) ∧
  (∀ f w,
     cleanupsMap s !! k = Some f →
     callFn f (world s) = (w, Throw e) →
     refCallback effect None nodeId s =
     (mkState (cleanupsMap s) w (trace s ++ [EvCleanup k f (Throw e)]),
      Throw e)).
Proof.
  intros k; split.
  - intros n w Heff. by rewrite refCallback_attach, Heff.
  - intros f w Hf Hcall. rewrite refCallback_detach; simpl.
    fold k. by rewrite Hf, Hcall.
Qed.

(** C9. When the effect throws, the registry after the attach is the
    registry before it: the effect is called before any write. *)
Theorem attach_throw_registry_unchanged effect n nodeId s w e :
  effect n (world s) = (w, Throw e) →
  cleanupsMap (refCallback effect (Some n) nodeId s).1 = cleanupsMap s.
Proof. intros Heff. by rewrite refCallback_attach, Heff. Qed.

(** ** What the closure does not call *)

(** A function that no entry holds and that no effect returns is not
    called.  [Q] selects the identifiers that the calls work under. *)
Lemma unheld_not_invoked (Q : string → Prop) f cs s :
  Forall (λ c, Q (call_key c)) cs →
  (∀ k, Q k → cleanupsMap s !! k ≠ Some f) →
  Forall (λ ev, ¬ returns_fn f ev) (events_since s (run cs s)) →
  Forall (λ ev, ¬ invokes f ev) (events_since s (run cs s)).
Proof.
  intros Hcs; revert s; induction Hcs as [|c cs Hc _ IH]; intros s Hs Hret.
  - simpl. rewrite events_since_refl. constructor.
  - rewrite events_since_run_cons in Hret |- *.
    apply Forall_app in Hret as [Hret1 Hret2].
    assert (Forall (λ ev, ¬ invokes f ev) (events_since s (step s c)) ∧
            ∀ k, Q k → cleanupsMap (step s c) !! k ≠ Some f) as [H1 H2].
    { clear IH Hret2. revert Hc Hret1.
      destruct c as [effect [n|] nodeId]; unfold call_key; cbn [call_nodeId];
        intros Hc.
      - rewrite step_attach, refCallback_attach.
        destruct (effect n (world s)) as [w [[|g]|e]]; cbn [fst];
          rewrite events_since_app, !Forall_singleton; cbn;
          intros Hret; (split; [tauto|]); try done.
        intros k Hk. rewrite lookup_insert. case_decide; [congruence|auto].
      - rewrite step_detach, refCallback_detach; cbn zeta.
        destruct (cleanupsMap s !! default "single" nodeId) as [g|] eqn:Hg.
        + assert (g ≠ f) by (intros ->; by eapply Hs).
          destruct (callFn g (world s)) as [w [[]|e]]; cbn [fst];
            rewrite events_since_app, !Forall_singleton; cbn;
            intros _; (split; [done|]); try done.
          intros k Hk. rewrite lookup_delete. case_decide; [done|auto].
        + cbn [fst]. rewrite events_since_refl. by split. }
    apply Forall_app; split; [done|]. by apply IH.
Qed.

(** ** Entries that outlive their attach *)

(** C10. When the stored cleanup throws, the detach leaves the registry as
    it was, the entry for the identifier included: the cleanup is called
    before the delete.  The next detach under the identifier, whatever
    calls under other identifiers come in between, calls the same cleanup
    again: it leaves the world as the cleanup leaves it and completes as
    the cleanup completes. *)
Theorem detach_throw_keeps_entry
    effect effect' nodeId middle s f w e :
  let k := default "single" nodeId in
  cleanupsMap s !! k = Some f →
  callFn f (world s) = (w, Throw e) →
  Forall (λ c, call_key c ≠ k) middle →
  let s1 := step s (mkCall effect None nodeId) in
  let s2 := run middle s1 in
  let s3 := step s2 (mkCall effect' None nodeId) in
  events_since s s1 = [EvCleanup k f (Throw e)] ∧
  world s1 = w ∧
  (refCallback effect None nodeId s).2 = Throw e ∧
  cleanupsMap s1 = cleanupsMap s ∧
  cleanupsMap s2 !! k = Some f ∧
  events_since s2 s3 = [EvCleanup k f (callFn f (world s2)).2] ∧
  world s3 = (callFn f (world s2)).1 ∧
  (refCallback effect' None nodeId s2).2 = (callFn f (world s2)).2.
Proof.
  intros k Hf Hcall Hmid s1 s2 s3.
  destruct (detach_result effect nodeId s f Hf) as (Hev & Hw & Hout & Hs1).
  rewrite Hcall in Hev, Hw, Hout, Hs1; cbn [fst snd] in Hev, Hw, Hout, Hs1.
  assert (cleanupsMap s2 !! k = Some f) as Hs2.
  { subst s2. destruct (run_other_keys middle s1 k Hmid) as [-> _].
    subst s1. by rewrite step_detach, Hs1. }
  destruct (detach_result effect' nodeId s2 f Hs2) as (Hev3 & Hw3 & Hout3 & _).
  by repeat split.
Qed.

(** ** The registry as a function of the history *)

Lemma pending_entry_nil K f : ¬ pending_entry K f ([] : list Event).
Proof. intros (pre & n & post & Heq & _). by destruct pre. Qed.

Lemma pending_entry_snoc K f tr ev :
  pending_entry K f (tr ++ [ev]) ↔
  (∃ n, ev = EvEffect K n (Normal (VFunction f))) ∨
  (pending_entry K f tr ∧ ¬ stores_under K ev ∧ ¬ completes_under K ev).
Proof.
  split.
  - intros (pre & n & post & Heq & Hpost).
    destruct post as [|y post _] using rev_ind.
    + apply app_inj_tail in Heq as [_ ->]. left; eauto.
    + rewrite app_comm_cons, app_assoc in Heq.
      apply app_inj_tail in Heq as [-> ->].
      apply Forall_app in Hpost as [Hpost Hy].
      rewrite Forall_singleton in Hy. right. split; [|done].
      by exists pre, n, post.
  - intros [[n ->]|((pre & n & post & -> & Hpost) & Hev)].
    + exists tr, n, []. by split.
    + exists pre, n, (post ++ [ev]). split.
      * by rewrite <- app_assoc.
      * apply Forall_app; split; [done|]. by apply Forall_singleton.
Qed.

(** Closes the cases of one step: the new event is the attach that
    stored [f], or it leaves the entry for [K] as it was. *)
Local Ltac tracks_cases :=
  split;
  [ intros ?; simplify_eq; first [by left; eauto | right; tauto]
  | intros [[? ?]|(? & ? & ?)]; simplify_eq; first [done | tauto] ].

Lemma registry_tracks_init (w : W) :
  registry_tracks_trace (init w : State).
Proof.
  intros K f; simpl. rewrite lookup_empty. split; [done|].
  intros H. by apply pending_entry_nil in H.
Qed.

Lemma registry_tracks_step s c :
  registry_tracks_trace s → registry_tracks_trace (step s c).
Proof.
  intros Hs K f. specialize (Hs K f). destruct c as [effect [n|] nodeId].
  - rewrite step_attach, refCallback_attach; cbn zeta.
    destruct (effect n (world s)) as [w [[|g]|e]]; cbn [fst cleanupsMap trace];
      rewrite pending_entry_snoc, <- Hs; cbn;
      try (rewrite lookup_insert; case_decide); tracks_cases.
  - rewrite step_detach, refCallback_detach; cbn zeta.
    destruct (cleanupsMap s !! default "single" nodeId) as [g|]; [|done].
    destruct (callFn g (world s)) as [w [[]|e]]; cbn [fst cleanupsMap trace];
      rewrite pending_entry_snoc, <- Hs; cbn;
      try (rewrite lookup_delete; case_decide); tracks_cases.
Qed.

Lemma registry_tracks_run cs s :
  registry_tracks_trace s → registry_tracks_trace (run cs s).
Proof.
  revert s; induction cs as [|c cs IH]; intros s Hs; [done|].
  simpl. by apply IH, registry_tracks_step.
Qed.

(** C1, as amended.  In every state that a sequence of calls reaches from
    the empty registry, an entry exists for [K] exactly when the effect
    returned a cleanup at some attach under [K] and, since the most recent
    such attach, no cleanup called under [K] has returned; the entry holds
    the cleanup returned at that attach. *)
Theorem registry_invariant cs (w : W) K :
  let s := run cs (init w) in
  (is_Some (cleanupsMap s !! K) ↔ ∃ f, pending_entry K f (trace s)) ∧
  (∀ f, pending_entry K f (trace s) → cleanupsMap s !! K = Some f).
Proof.
  intros s.
  assert (registry_tracks_trace s) as Hs
    by apply registry_tracks_run, registry_tracks_init.
  split.
  - split; intros [f Hf]; exists f; by apply Hs.
  - intros f. apply Hs.
Qed.

(** C8. With a cleanup [f] registered under [K], an attach under [K] whose
    effect returns nothing leaves the registry as it was.  The next detach
    under [K] calls [f], leaving the world as [f] leaves it and completing
    as [f] completes: a cleanup that the effect returned at an earlier
    attach under [K], while the most recent attach under [K] returned
    none. *)
Theorem attach_undefined_keeps_entry
    effect effect' n nodeId middle cs (w0 : W) f w :
  let k := default "single" nodeId in
  let s := run cs (init w0) in
  cleanupsMap s !! k = Some f →
  effect n (world s) = (w, Normal VUndefined) →
  Forall (λ c, call_key c ≠ k) middle →
  let s1 := step s (mkCall effect (Some n) nodeId) in
  let s2 := run middle s1 in
  let s3 := step s2 (mkCall effect' None nodeId) in
  cleanupsMap s1 = cleanupsMap s ∧
  events_since s2 s3 = [EvCleanup k f (callFn f (world s2)).2] ∧
  world s3 = (callFn f (world s2)).1 ∧
  (refCallback effect' None nodeId s2).2 = (callFn f (world s2)).2 ∧
  pending_entry k f (trace s) ∧
  trace s2 = trace s ++ EvEffect k n (Normal VUndefined) :: events_since s1 s2 ∧
  Forall (λ ev, event_key ev ≠ k) (events_since s1 s2).
Proof.
  intros k s Hf Heff Hmid s1 s2 s3.
  assert (cleanupsMap s1 = cleanupsMap s ∧
          trace s1 = trace s ++ [EvEffect k n (Normal VUndefined)])
    as [Hs1 Htr1].
  { subst s1. by rewrite step_attach, refCallback_attach, Heff. }
  destruct (run_other_keys middle s1 k Hmid) as [Hs2 Hkeys].
  fold s2 in Hs2, Hkeys. rewrite Hs1, Hf in Hs2.
  destruct (detach_result effect' nodeId s2 f Hs2) as (Hev3 & Hw3 & Hout3 & _).
  split; [done|]. do 3 (split; [done|]).
  split; [|split; [|done]].
  - by apply (registry_tracks_run cs (init w0) (registry_tracks_init w0)).
  - subst s2. by rewrite trace_run, Htr1, <- app_assoc.
Qed.

(** ** Attach, then detach *)

(** C2, as amended.  [attach(node, id)] at which the effect returns the
    cleanup [f], then calls under other identifiers, then
    [attach(null, id)]: the detach calls [f], once, and nothing else,
    whatever [f] does; it leaves the world as [f] leaves it and completes
    as [f] completes.  When [f] returns, the entry for [id] is gone when
    the call returns; when [f] throws, the entry is still there.  No call
    in between calls anything under [id]; none of them calls [f] at all
    when [f] is not also registered under another identifier and no effect
    returns it again in between. *)
Theorem matching_detach effect effect' n nodeId middle s f w :
  let k := default "single" nodeId in
  let s1 := step s (mkCall effect (Some n) nodeId) in
  let s2 := run middle s1 in
  let s3 := step s2 (mkCall effect' None nodeId) in
  let out := callFn f (world s2) in
  effect n (world s) = (w, Normal (VFunction f)) →
  Forall (λ c, call_key c ≠ k) middle →
  Forall (λ ev, event_key ev ≠ k) (events_since s1 s2) ∧
  events_since s2 s3 = [EvCleanup k f out.2] ∧
  world s3 = out.1 ∧
  (refCallback effect' None nodeId s2).2 = out.2 ∧
  (out.2 = Normal tt → cleanupsMap s3 !! k = None) ∧
  (∀ e, out.2 = Throw e → cleanupsMap s3 !! k = Some f) ∧
  ((∀ k', k' ≠ k → cleanupsMap s !! k' ≠ Some f) →
   Forall (λ ev, ¬ returns_fn f ev) (events_since s1 s2) →
   Forall (λ ev, ¬ invokes f ev) (events_since s1 s2)).
Proof.
  intros k s1 s2 s3 out Heff Hmid.
  assert (cleanupsMap s1 = <[k := f]> (cleanupsMap s)) as Hs1.
  { subst s1. by rewrite step_attach, refCallback_attach, Heff. }
  destruct (run_other_keys middle s1 k Hmid) as [Hs2 Hkeys].
  fold s2 in Hs2, Hkeys. rewrite Hs1, lookup_insert_eq in Hs2.
  destruct (detach_result effect' nodeId s2 f Hs2) as (Hev & Hw & Hout & Hmap).
  fold out k in Hev, Hw, Hout, Hmap.
  split; [done|]. do 3 (split; [done|]). split; [|split].
  - intros Hn. subst s3. rewrite step_detach, Hmap, Hn. apply lookup_delete_eq.
  - intros e He. subst s3. by rewrite step_detach, Hmap, He.
  - intros Hfree Hret.
    apply (unheld_not_invoked (λ k', k' ≠ k)); [done| |done].
    intros k' Hk'. rewrite Hs1, lookup_insert_ne by done. by apply Hfree.
Qed.

(** ** Attach over an entry *)

(** C3, as amended.  With a cleanup [f_old] registered under [K], an
    attach under [K] whose effect returns [f_new] puts [f_new] in the
    entry for [K] and calls nothing but the effect.  Afterwards [f_old]
    is not called by any call, provided that no entry holds it any more
    (it is not [f_new], and no other identifier has it) and that no later
    effect returns it again. *)
Theorem overwrite_discards effect n nodeId later s f_old f_new w :
  let k := default "single" nodeId in
  let s1 := step s (mkCall effect (Some n) nodeId) in
  cleanupsMap s !! k = Some f_old →
  effect n (world s) = (w, Normal (VFunction f_new)) →
  cleanupsMap s1 = <[k := f_new]> (cleanupsMap s) ∧
  events_since s s1 = [EvEffect k n (Normal (VFunction f_new))] ∧
  ((∀ k', cleanupsMap s1 !! k' ≠ Some f_old) →
   Forall (λ ev, ¬ returns_fn f_old ev) (events_since s1 (run later s1)) →
   Forall (λ ev, ¬ invokes f_old ev) (events_since s (run later s1))).
Proof.
  intros k s1 Hold Heff.
  assert (cleanupsMap s1 = <[k := f_new]> (cleanupsMap s) ∧
          events_since s s1 = [EvEffect k n (Normal (VFunction f_new))])
    as [Hs1 Hev].
  { subst s1. rewrite step_attach, refCallback_attach, Heff; cbn [fst].
    by rewrite events_since_app. }
  split; [done|]. split; [done|]. intros Hfree Hret.
  change (run later s1) with (run (mkCall effect (Some n) nodeId :: later) s).
  rewrite events_since_run_cons. fold s1. rewrite Hev.
  cbn [app]. constructor; [cbn; tauto|].
  apply (unheld_not_invoked (λ _, True)); [|by auto|done].
  by apply Forall_true.
Qed.

(** ** Further properties of the closure *)

(** What one call does to the state, case by case. *)
Lemma step_attach_spec effect n nodeId s :
  let k := default "single" nodeId in
  let s1 := step s (mkCall effect (Some n) nodeId) in
  let out := (effect n (world s)).2 in
  events_since s s1 = [EvEffect k n out] ∧
  world s1 = (effect n (world s)).1 ∧
  cleanupsMap s1 = match out with
                   | Normal (VFunction f) => <[k := f]> (cleanupsMap s)
                   | _ => cleanupsMap s
                   end.
Proof.
  cbn zeta. rewrite step_attach, refCallback_attach.
  destruct (effect n (world s)) as [w [[|f]|e]]; cbn [fst snd];
    by rewrite events_since_app.
Qed.

Lemma step_detach_spec effect nodeId s :
  let k := default "single" nodeId in
  let s1 := step s (mkCall effect None nodeId) in
  match cleanupsMap s !! k with
  | None => s1 = s
  | Some f =>
      let out := (callFn f (world s)).2 in
      events_since s s1 = [EvCleanup k f out] ∧
      world s1 = (callFn f (world s)).1 ∧
      cleanupsMap s1 = match out with
                       | Normal _ => delete k (cleanupsMap s)
                       | Throw _ => cleanupsMap s
                       end
  end.
Proof.
  cbn zeta. rewrite step_detach, refCallback_detach; cbn zeta.
  destruct (cleanupsMap s !! default "single" nodeId) as [f|]; [|done].
  destruct (callFn f (world s)) as [w [[]|e]]; cbn [fst snd];
    by rewrite events_since_app.
Qed.

Lemma run_snoc cs c s : run (cs ++ [c]) s = step (run cs s) c.
Proof. apply foldl_snoc. Qed.

Lemma count_events_app p tr tr' :
  count_events p (tr ++ tr') = count_events p tr + count_events p tr'.
Proof. unfold count_events. by rewrite List.filter_app, length_app. Qed.

Lemma count_events_singleton p ev :
  count_events p [ev] = if p ev then 1 else 0.
Proof. unfold count_events; simpl. by destruct (p ev). Qed.

Lemma count_calls_cons p c cs :
  count_calls p (c :: cs) = (if p c then 1 else 0) + count_calls p cs.
Proof. unfold count_calls; simpl. by destruct (p c). Qed.

(** Calls into caller code are made under the identifiers of the calls. *)
Lemma run_event_keys cs s :
  Forall (λ ev, event_key ev ∈ call_key <$> cs) (events_since s (run cs s)).
Proof.
  revert s; induction cs as [|c cs IH]; intros s.
  - simpl. by rewrite events_since_refl.
  - rewrite events_since_run_cons, fmap_cons. apply Forall_app; split.
    + destruct (trace_step s c) as [_ Hk].
      eapply Forall_impl; [exact Hk|]. intros ev ->. by left.
    + eapply Forall_impl; [apply IH|]. intros ev Hev. by right.
Qed.

(** X1. The calls of a sequence touch only the entries of their own
    identifiers: the entry of every identifier that no call of the sequence
    works under is what it was, and every call into caller code was made
    under the identifier of one of the calls. *)
Theorem other_identifiers_untouched cs s :
  (∀ K, K ∉ call_key <$> cs →
        cleanupsMap (run cs s) !! K = cleanupsMap s !! K) ∧
  Forall (λ ev, event_key ev ∈ call_key <$> cs) (events_since s (run cs s)).
Proof.
  split; [|apply run_event_keys].
  intros K HK. apply run_other_keys. apply Forall_forall. intros c Hc Heq.
  apply HK. rewrite <- Heq. by apply list_elem_of_fmap_2.
Qed.

(** X2. The effect is called once for every call that passes a node,
    whatever the registry holds, and a cleanup is called at most once for
    every call that passes null: over any sequence of calls the number of
    effect calls is the number of attaches, and the number of cleanup calls
    is at most the number of detaches. *)
Theorem calls_into_caller_code cs s :
  let tr := events_since s (run cs s) in
  count_events is_effect_event tr = count_calls is_attach cs ∧
  (count_events is_cleanup_event tr ≤ count_calls (negb ∘ is_attach) cs)%nat.
Proof.
  revert s; induction cs as [|c cs IH]; intros s; cbn zeta.
  - simpl. by rewrite events_since_refl.
  - rewrite events_since_run_cons, !count_events_app, !count_calls_cons.
    destruct (IH (step s c)) as [-> Hle]. unfold compose at 1.
    destruct c as [effect [n|] nodeId];
      [change (is_attach (mkCall effect (Some n) nodeId)) with true
      |change (is_attach (mkCall effect None nodeId)) with false];
      cbn [negb].
    + destruct (step_attach_spec effect n nodeId s) as (-> & _).
      rewrite !count_events_singleton; cbn [is_effect_event is_cleanup_event].
      split; [done|lia].
    + pose proof (step_detach_spec effect nodeId s) as Hd; cbn zeta in Hd.
      destruct (cleanupsMap s !! default "single" nodeId) as [f|].
      * destruct Hd as (-> & _).
        rewrite !count_events_singleton; cbn [is_effect_event is_cleanup_event].
        split; [done|lia].
      * rewrite Hd in Hle |- *. rewrite events_since_refl.
        cbn [count_events List.filter length]. split; [done|lia].
Qed.

(** X3. Attach and detach undo each other on the registry: when the
    identifier has no entry, the effect returns a cleanup and the cleanup
    returns, [attach(node, id)] followed by [attach(null, id)] leaves the
    registry exactly as it was, having called the effect and then that
    cleanup. *)
Theorem attach_detach_round_trip effect effect' n nodeId s f w w' :
  let k := default "single" nodeId in
  let s2 := run [mkCall effect (Some n) nodeId; mkCall effect' None nodeId] s in
  cleanupsMap s !! k = None →
  effect n (world s) = (w, Normal (VFunction f)) →
  callFn f w = (w', Normal tt) →
  cleanupsMap s2 = cleanupsMap s ∧
  world s2 = w' ∧
  events_since s s2 =
    [EvEffect k n (Normal (VFunction f)); EvCleanup k f (Normal tt)].
Proof.
  intros k s2 Hnone Heff Hcall.
  destruct (step_attach_spec effect n nodeId s) as (Hev1 & Hw1 & Hm1).
  rewrite Heff in Hev1, Hw1, Hm1; cbn [fst snd] in Hev1, Hw1, Hm1.
  set (s1 := step s (mkCall effect (Some n) nodeId)) in *.
  pose proof (step_detach_spec effect' nodeId s1) as Hd; cbn zeta in Hd.
  fold k in Hd, Hm1, Hev1. rewrite Hm1, lookup_insert_eq, Hw1, Hcall in Hd.
  cbn [fst snd] in Hd. destruct Hd as (Hev2 & Hw2 & Hm2).
  subst s2. rewrite events_since_run_cons. cbn [run foldl]. fold s1.
  rewrite Hev1, Hev2, Hw2, Hm2. repeat split; try done.
  by rewrite delete_insert_eq, delete_id.
Qed.

(** X4. A second detach does nothing: after [attach(null, id)] whose
    cleanup, if there was one, returned, and after any calls under other
    identifiers, [attach(null, id)] calls nothing, changes nothing and
    returns; a cleanup that returned is not called a second time. *)
Theorem second_detach_noop effect effect' nodeId middle s :
  let k := default "single" nodeId in
  let s1 := step s (mkCall effect None nodeId) in
  let s2 := run middle s1 in
  (∀ f, cleanupsMap s !! k = Some f → (callFn f (world s)).2 = Normal tt) →
  Forall (λ c, call_key c ≠ k) middle →
  refCallback effect' None nodeId s2 = (s2, Normal tt).
Proof.
  intros k s1 s2 Hret Hmid.
  assert (cleanupsMap s1 !! k = None) as Hs1.
  { pose proof (step_detach_spec effect nodeId s) as Hd; cbn zeta in Hd.
    fold k s1 in Hd. destruct (cleanupsMap s !! k) as [f|] eqn:Hf.
    - destruct Hd as (_ & _ & ->). rewrite (Hret f eq_refl).
      apply lookup_delete_eq.
    - by rewrite Hd. }
  destruct (run_other_keys middle s1 k Hmid) as [Hs2 _]. fold s2 in Hs2.
  rewrite refCallback_detach; cbn zeta. fold k. by rewrite Hs2, Hs1.
Qed.

(** X5. Effects without cleanup leave no trace in the registry: when no
    effect of a sequence of calls ever returns a function, the registry
    stays empty from the first render on and no cleanup is ever called. *)
Theorem effects_without_cleanup cs (w : W) :
  let s := run cs (init w) in
  Forall (λ c, never_returns_function (call_effect_of c)) cs →
  cleanupsMap s = ∅ ∧ count_events is_cleanup_event (trace s) = 0.
Proof.
  cbn zeta. intros Hcs.
  cut (∀ s0, cleanupsMap s0 = ∅ →
         cleanupsMap (run cs s0) = ∅ ∧
         count_events is_cleanup_event (events_since s0 (run cs s0)) = 0).
  { intros H. destruct (H (init w) eq_refl) as [Hm Hc]. split; [done|].
    by rewrite trace_run, count_events_app, Hc. }
  induction Hcs as [|c cs Hc _ IH]; intros s0 Hs0.
  - simpl. by rewrite events_since_refl.
  - rewrite events_since_run_cons, count_events_app.
    change (run (c :: cs) s0) with (run cs (step s0 c)).
    assert (cleanupsMap (step s0 c) = ∅ ∧
            count_events is_cleanup_event (events_since s0 (step s0 c)) = 0)
      as [Hm Hev].
    { destruct c as [effect [n|] nodeId]; cbn [call_effect_of] in Hc.
      - destruct (step_attach_spec effect n nodeId s0) as (-> & _ & ->).
        split; [|done]. specialize (Hc n (world s0)).
        destruct (effect n (world s0)) as [w' [[|f]|e]]; cbn [snd] in *;
          try done. by destruct (Hc f).
      - pose proof (step_detach_spec effect nodeId s0) as Hd; cbn zeta in Hd.
        rewrite Hs0, lookup_empty in Hd. rewrite Hd, events_since_refl.
        by split. }
    destruct (IH _ Hm) as [-> ->]. by rewrite Hev.
Qed.

(** X6. Identifiers used once are never cleaned up.  When every call of a
    sequence works under an identifier of its own (as with
    [ref={(node) => setDynamicVideo(node, uid())}], where each call draws a
    new identifier), no cleanup is ever called, and every cleanup that an
    effect returned is still registered under the identifier of its
    attach. *)
Theorem distinct_identifiers_never_cleaned cs (w : W) :
  let s := run cs (init w) in
  NoDup (call_key <$> cs) →
  count_events is_cleanup_event (trace s) = 0 ∧
  ∀ K n f,
    EvEffect K n (Normal (VFunction f)) ∈ trace s →
    cleanupsMap s !! K = Some f.
Proof.
  cbn zeta. induction cs as [|c cs IH] using rev_ind; intros Hnd.
  - split; [done|]. intros K n f Hin. by apply elem_of_nil in Hin.
  - rewrite fmap_app in Hnd. apply NoDup_app in Hnd as (Hnd & Hfresh & _).
    destruct (IH Hnd) as [Hcount Hreg]; clear IH.
    set (s0 := run cs (init w)) in *.
    assert (cleanupsMap s0 !! call_key c = None) as Hnone.
    { apply never_attached_unregistered; [apply lookup_empty|].
      apply Forall_forall. intros c' Hc' Heq. exfalso.
      apply (Hfresh (call_key c')); [by apply list_elem_of_fmap_2|].
      rewrite Heq. by left. }
    rewrite run_snoc. fold s0. destruct (trace_step s0 c) as [Htr _].
    destruct c as [effect [n|] nodeId]; unfold call_key in Hnone;
      cbn [call_nodeId] in Hnone.
    + destruct (step_attach_spec effect n nodeId s0) as (Hev & _ & Hmap).
      rewrite Htr, Hev, count_events_app, Hcount, count_events_singleton.
      split; [done|]. intros K n' f [Hin|Hin]%elem_of_app.
      * assert (K ≠ default "single" nodeId) as Hne.
        { intros ->. apply Hreg in Hin. congruence. }
        rewrite Hmap.
        destruct (effect n (world s0)).2 as [[|g]|e]; try by eapply Hreg.
        rewrite lookup_insert_ne by done. by eapply Hreg.
      * apply list_elem_of_singleton in Hin. injection Hin as -> -> Hout.
        rewrite Hmap, <- Hout. apply lookup_insert_eq.
    + pose proof (step_detach_spec effect nodeId s0) as Hd; cbn zeta in Hd.
      rewrite Hnone in Hd. rewrite Hd. by split.
Qed.

(** X7. The closure calls only what it was given: in every run from the
    first render, a cleanup called under [K] is the function that the
    effect returned at the most recent attach under [K] at which it
    returned one, and no cleanup called under [K] has returned between that
    attach and the call. *)
Theorem cleanup_provenance cs (w : W) pre K f out post :
  trace (run cs (init w)) = pre ++ EvCleanup K f out :: post →
  pending_entry K f pre.
Proof.
  revert pre post. induction cs as [|c cs IH] using rev_ind; intros pre post Heq.
  - by destruct pre.
  - rewrite run_snoc in Heq. set (s0 := run cs (init w)) in *.
    assert (registry_tracks_trace s0) as Hs0
      by apply registry_tracks_run, registry_tracks_init.
    destruct (trace_step s0 c) as [Htr _]. rewrite Htr in Heq; clear Htr.
    assert (events_since s0 (step s0 c) = [] ∨
            (∃ ev, events_since s0 (step s0 c) = [ev] ∧
                   (ev = EvCleanup K f out → cleanupsMap s0 !! K = Some f)))
      as [Hev|(ev & Hev & Hf)].
    { destruct c as [effect [n|] nodeId].
      - destruct (step_attach_spec effect n nodeId s0) as (Hev & _).
        right. eexists. split; [exact Hev|]. discriminate.
      - pose proof (step_detach_spec effect nodeId s0) as Hd; cbn zeta in Hd.
        destruct (cleanupsMap s0 !! default "single" nodeId) as [g|] eqn:Hg.
        + destruct Hd as (Hev & _). right. eexists. split; [exact Hev|].
          intros [= <- <- _]. exact Hg.
        + left. rewrite Hd. apply events_since_refl. }
    + rewrite Hev, app_nil_r in Heq. by eapply IH.
    + rewrite Hev in Heq. destruct post as [|y post _] using rev_ind.
      * apply app_inj_tail in Heq as [<- Hlast]. by apply Hs0, Hf.
      * rewrite app_comm_cons, app_assoc in Heq.
        apply app_inj_tail in Heq as [Heq _]. by eapply IH.
Qed.

(** X8. Detach, then attach, under one identifier: the stored cleanup is
    called and returns, then the effect of the second callback is called
    with the new node, and the cleanup it returns takes the place of the old
    one.  The two callbacks may come from different renders. *)
Theorem detach_then_attach effect_old effect_new n nodeId s f w f' w' :
  let k := default "single" nodeId in
  let s2 := run [mkCall effect_old None nodeId;
                 mkCall effect_new (Some n) nodeId] s in
  cleanupsMap s !! k = Some f →
  callFn f (world s) = (w, Normal tt) →
  effect_new n w = (w', Normal (VFunction f')) →
  events_since s s2 =
    [EvCleanup k f (Normal tt); EvEffect k n (Normal (VFunction f'))] ∧
  cleanupsMap s2 = <[k := f']> (cleanupsMap s) ∧
  world s2 = w'.
Proof.
  intros k s2 Hf Hcall Heff.
  pose proof (step_detach_spec effect_old nodeId s) as Hd; cbn zeta in Hd.
  fold k in Hd. rewrite Hf, Hcall in Hd; cbn [fst snd] in Hd.
  destruct Hd as (Hev1 & Hw1 & Hm1).
  set (s1 := step s (mkCall effect_old None nodeId)) in *.
  destruct (step_attach_spec effect_new n nodeId s1) as (Hev2 & Hw2 & Hm2).
  rewrite Hw1, Heff in Hev2, Hw2, Hm2; cbn [fst snd] in Hev2, Hw2, Hm2.
  subst s2. rewrite events_since_run_cons. cbn [run foldl]. fold s1 k.
  fold k in Hev2, Hm2. rewrite Hev1, Hev2, Hw2, Hm2, Hm1.
  repeat split; try done. apply insert_delete_eq.
Qed.

(** X9. No cleanup completes twice for one attach: in every run from the
    first render, the number of cleanups that were called and returned,
    plus the number of entries still in the registry, is at most the number
    of attaches at which the effect returned a cleanup. *)
Theorem completed_cleanups_bounded cs (w : W) :
  let s := run cs (init w) in
  (count_events is_completed_event (trace s) + size (cleanupsMap s) ≤
   count_events is_store_event (trace s))%nat.
Proof.
  cbn zeta. induction cs as [|c cs IH] using rev_ind.
  - simpl. by rewrite map_size_empty.
  - rewrite run_snoc. set (s0 := run cs (init w)) in *.
    destruct (trace_step s0 c) as [-> _]. rewrite !count_events_app.
    destruct c as [effect [n|] nodeId].
    + destruct (step_attach_spec effect n nodeId s0) as (-> & _ & ->).
      rewrite !count_events_singleton.
      destruct (effect n (world s0)).2 as [[|g]|e];
        cbn [is_completed_event is_store_event]; try lia.
      rewrite map_size_insert.
      destruct (cleanupsMap s0 !! default "single" nodeId); simpl; lia.
    + pose proof (step_detach_spec effect nodeId s0) as Hd; cbn zeta in Hd.
      destruct (cleanupsMap s0 !! default "single" nodeId) as [g|] eqn:Hg.
      * destruct Hd as (-> & _ & ->). rewrite !count_events_singleton.
        destruct (callFn g (world s0)).2 as [[]|e];
          cbn [is_completed_event is_store_event]; [|lia].
        rewrite map_size_delete, Hg; simpl.
        pose proof (map_size_ne_0_lookup_2 (cleanupsMap s0) _ (mk_is_Some _ _ Hg)).
        lia.
      * rewrite Hd, events_since_refl. cbn [count_events List.filter length].
        lia.
Qed.

End TrackerFacts.

(** * Properties of the hook *)

Section HookFacts.

Context {Val : Type} `{EqDecision Val}.

Implicit Types (effect : Val) (deps : list Val) (h : @Hooks Val).

Lemma areHookInputsEqual_refl (l : list Val) : areHookInputsEqual l l = true.
Proof. induction l as [|x l IH]; simpl; [done|]. by rewrite bool_decide_true. Qed.


Lemma areHookInputsEqual_head x (l : list Val) y l' :
  areHookInputsEqual (x :: l) (y :: l') = true → x = y.
Proof.
  simpl. rewrite andb_true_iff, bool_decide_eq_true. by intros [-> _].
Qed.








Lemma memo_effect_render h r : memo_effect h → memo_effect (render h r).
Proof.
  intros Hh cb deps. unfold render, useRefCallback, useCallback.
  cbn [snd memo_cell].
  destruct (memo_cell h) as [[prevFn prevDeps]|] eqn:Hm.
  - destruct (areHookInputsEqual (r.1 :: r.2) prevDeps); cbn [snd].
    + intros [= <- <-]. by apply Hh.
    + intros [= <- <-]. done.
  - cbn [snd]. intros [= <- <-]. done.
Qed.

Lemma memo_effect_renders rs : memo_effect (renders rs : @Hooks Val).
Proof.
  unfold renders.
  assert (memo_effect (mount : @Hooks Val)) as Hm by (intros cb deps [=]).
  revert Hm. generalize (mount : @Hooks Val) as h.
  induction rs as [|r rs IH]; intros h Hh; [done|].
  simpl. by apply IH, memo_effect_render.
Qed.

(** X10. No stale effect: at every render, after any earlier renders, the
    callback that [useRefCallback(effect, deps)] hands out captured an
    effect identical to the [effect] of this render, whether the callback is
    new or reused, because the effect heads the dependency list. *)
Theorem callback_captures_current_effect rs effect deps :
  cb_effect (useRefCallback effect deps (renders rs)).1 = effect.
Proof.
  pose proof (memo_effect_renders rs) as Hh.
  unfold useRefCallback, useCallback. cbn [fst].
  destruct (memo_cell (renders rs)) as [[prevFn prevDeps]|] eqn:Hm; [|done].
  destruct (areHookInputsEqual (effect :: deps) prevDeps) eqn:Heq; [|done].
  specialize (Hh _ _ Hm). destruct prevDeps as [|y prevDeps]; [done|].
  apply areHookInputsEqual_head in Heq. cbn in Hh |- *. congruence.
Qed.

End HookFacts.

(** * The theorems at the concrete caller *)

Section Instances.

Import Example.

Local Abbreviation refCallback := (refCallback callFn).
Local Abbreviation step := (step callFn).
Local Abbreviation run := (run callFn).

(** Splits a concrete trace in every possible way. *)
Local Ltac split_trace H pre :=
  vm_compute in H;
  repeat (destruct pre as [|? pre]; simplify_eq/=).

(** The two sequences of the specification's example, on the log of the
    cleanups called: attach, detach; and attach, attach, detach under one
    identifier, where the cleanup of the second attach is the one called. *)
Example attach_detach_log :
  world (run [attach 3 "x"; detach "x"] start) = [7].
Proof. reflexivity. Qed.

Example attach_attach_detach_log :
  world (run [attach 3 "x"; attach 5 "x"; detach "x"] start) = [8].
Proof. reflexivity. Qed.

(** C1 fails as stated.  After [attach(3, "x")], [attach(1, "x")],
    [attach(2, "y")], [attach(null, "y")] the registry holds an entry for
    ["x"], though the most recent attach under ["x"] returned nothing, and
    an entry for ["y"], though its cleanup was invoked (and threw). *)
Lemma registry_invariant_stated_fails :
  let s := run [attach 3 "x"; attach 1 "x"; attach 2 "y"; detach "y"] start in
  cleanupsMap s !! "x" = Some 7 ∧ cleanupsMap s !! "y" = Some 0 ∧
  ¬ registry_invariant_stated s "x" ∧ ¬ registry_invariant_stated s "y".
Proof.
  intros s. split; [reflexivity|]. split; [reflexivity|]. split.
  - intros [H _]. destruct H as (pre & n & f & post & Heq & Hatt & _).
    { by exists 7. }
    split_trace Heq pre.
    apply Forall_cons in Hatt as [Hatt _]. by apply Hatt.
  - intros [H _]. destruct H as (pre & n & f & post & Heq & _ & Hinv).
    { by exists 0. }
    split_trace Heq pre.
    apply Forall_cons in Hinv as [Hinv _]. by apply Hinv.
Qed.

(** C2 fails as stated, in three ways.  The cleanup returned for node 2
    throws, and the entry for ["x"] is still there after the matching
    detach.  The cleanup returned for node 4 under ["x"] is the function
    already registered under ["y"]: the detach of ["y"] in between calls it,
    the detach of ["x"] calls it again.  And the cleanup returned for node 3
    under ["x"] is returned again for node 4 under ["y"] in between, with
    the same two calls. *)
Lemma matching_detach_stated_fails :
  ¬ matching_detach_stated callFn start effect 2 (Some "x") [] effect ∧
  ¬ matching_detach_stated callFn (run [attach 3 "y"] start)
      effect 4 (Some "x") [detach "y"] effect ∧
  ¬ matching_detach_stated callFn start
      effect 3 (Some "x") [attach 4 "y"; detach "y"] effect.
Proof.
  split; [|split]; intros H.
  - destruct (H 0 [] eq_refl) as (_ & _ & Hgone); [constructor|].
    vm_compute in Hgone. discriminate Hgone.
  - destruct (H 7 [] eq_refl) as (Hinv & _).
    { repeat constructor. by vm_compute. }
    vm_compute in Hinv. apply Forall_cons in Hinv as [Hinv _].
    by apply Hinv.
  - destruct (H 7 [] eq_refl) as (Hinv & _).
    { repeat constructor; by vm_compute. }
    vm_compute in Hinv. apply Forall_cons in Hinv as [_ Hinv].
    apply Forall_cons in Hinv as [Hinv _]. by apply Hinv.
Qed.

(** C3 fails as stated, in three ways.  Function 7 is registered under
    ["x"] and under ["y"]; the attach of node 5 under ["x"] replaces it
    there by function 8, and the later detach of ["y"] calls function 7.
    With function 7 under ["x"] alone, replaced by function 8, a later
    attach of node 4 under ["x"] brings function 7 back and the detach calls
    it.  And when the second attach is of node 4, the new action is
    function 7 itself. *)
Lemma overwrite_stated_fails :
  ¬ overwrite_stated callFn (run [attach 3 "x"; attach 4 "y"] start)
      effect 5 (Some "x") [detach "y"] ∧
  ¬ overwrite_stated callFn (run [attach 3 "x"] start)
      effect 5 (Some "x") [attach 4 "x"; detach "x"] ∧
  ¬ overwrite_stated callFn (run [attach 3 "x"] start)
      effect 4 (Some "x") [detach "x"].
Proof.
  split; [|split]; intros H.
  - destruct (H 7 8 [] eq_refl eq_refl) as [_ Hinv].
    vm_compute in Hinv. apply Forall_cons in Hinv as [_ Hinv].
    apply Forall_cons in Hinv as [Hinv _]. by apply Hinv.
  - destruct (H 7 8 [] eq_refl eq_refl) as [_ Hinv].
    vm_compute in Hinv. do 2 apply Forall_cons in Hinv as [_ Hinv].
    apply Forall_cons in Hinv as [Hinv _]. by apply Hinv.
  - destruct (H 7 7 [] eq_refl eq_refl) as [_ Hinv].
    vm_compute in Hinv. apply Forall_cons in Hinv as [_ Hinv].
    apply Forall_cons in Hinv as [Hinv _]. by apply Hinv.
Qed.

(** The registry invariant after an attach whose effect returned nothing
    and a detach whose cleanup threw. *)
Lemma registry_invariant_witness :
  let s := run [attach 3 "x"; attach 1 "x"; attach 2 "y"; detach "y"] start in
  is_Some (cleanupsMap s !! "y") ↔ ∃ f, pending_entry "y" f (trace s).
Proof.
  exact (proj1 (registry_invariant callFn
    [attach 3 "x"; attach 1 "x"; attach 2 "y"; detach "y"] [] "y")).
Defined.

Lemma matching_detach_witness :
  let s1 := step start (attach 3 "x") in
  let s2 := run [attach 5 "y"; detach "y"] s1 in
  let s3 := step s2 (detach "x") in
  (effect 3 (world start) = ([], Normal (VFunction 7)) ∧
   Forall (λ c, call_key c ≠ "x") [attach 5 "y"; detach "y"]) ∧
  events_since s2 s3 = [EvCleanup "x" 7 (Normal tt)] ∧
  world s3 = [8; 7] ∧
  (refCallback effect None (Some "x") s2).2 = Normal tt ∧
  cleanupsMap s3 !! "x" = None.
Proof.
  intros s1 s2 s3.
  assert (Forall (λ c : Call, call_key c ≠ "x") [attach 5 "y"; detach "y"])
    as Hmid by (repeat constructor; by vm_compute).
  split; [by split|].
  destruct (matching_detach callFn effect effect 3 (Some "x")
              [attach 5 "y"; detach "y"] start 7 []
              eq_refl Hmid) as (_ & Hev & Hw & Hout & Hgone & _).
  split; [exact Hev|]. split; [exact Hw|]. split; [exact Hout|].
  by apply Hgone.
Defined.

Lemma overwrite_discards_witness :
  let s := run [attach 3 "x"] start in
  let s1 := step s (attach 5 "x") in
  (cleanupsMap s !! "x" = Some 7 ∧
   effect 5 (world s) = ([], Normal (VFunction 8))) ∧
  cleanupsMap s1 = <[ "x" := 8 ]> (cleanupsMap s) ∧
  Forall (λ ev, ¬ invokes 7 ev) (events_since s (run [detach "x"] s1)).
Proof.
  intros s s1. split; [by split|].
  destruct (overwrite_discards callFn effect 5 (Some "x") [detach "x"]
              s 7 8 [] eq_refl eq_refl) as (Hmap & _ & Hnever).
  split; [done|]. apply Hnever.
  - intros k'. fold s1. rewrite Hmap.
    change (cleanupsMap s) with (<[ "x" := 7 ]> (∅ : gmap string FnRef)).
    rewrite insert_insert_eq, lookup_insert.
    case_decide; [done|]. by rewrite lookup_empty.
  - vm_compute. repeat constructor; tauto.
Defined.

Lemma detach_unregistered_noop_witness :
  let s := run [attach 3 "y"; detach "x"] start in
  Forall (λ c : Call, call_key c = "x" → call_node c = None)
         [attach 3 "y"; detach "x"] ∧
  refCallback effect None (Some "x") s = (s, Normal tt).
Proof.
  intros s.
  assert (Forall (λ c : Call, call_key c = "x" → call_node c = None)
                 [attach 3 "y"; detach "x"]) as Hcs.
  { repeat constructor; by vm_compute. }
  split; [done|].
  apply (detach_unregistered_noop callFn effect (Some "x") s).
  right. by exists [attach 3 "y"; detach "x"], [].
Defined.

Lemma single_node_sentinel_witness :
  let s1 := step start (mkCall effect (Some 3) None) in
  let s2 := step s1 (mkCall effect None None) in
  effect 3 (world start) = ([], Normal (VFunction 7)) ∧
  cleanupsMap s1 !! "single" = Some 7 ∧
  events_since s1 s2 = [EvCleanup "single" 7 (Normal tt)] ∧
  world s2 = [7] ∧
  (refCallback effect None None s1).2 = Normal tt ∧
  s2 = run [attach 3 "single"; detach "single"] start.
Proof.
  intros s1 s2. split; [done|].
  exact (proj2 (single_node_sentinel callFn effect effect 3 7 [] start
                  eq_refl)).
Defined.

Lemma throw_propagates_witness :
  let s := run [attach 2 "x"] start in
  (effect 0 (world start) = ([], Throw "effect failed") ∧
   cleanupsMap s !! "x" = Some 0 ∧
   callFn 0 (world s) = ([0], Throw "cleanup failed")) ∧
  (refCallback effect (Some 0) (Some "x") start).2 = Throw "effect failed" ∧
  (refCallback effect None (Some "x") s).2 = Throw "cleanup failed".
Proof.
  intros s. split; [by repeat split|]. split.
  - by rewrite (proj1 (throw_propagates callFn effect (Some "x") start
                         "effect failed") 0 [] eq_refl).
  - by rewrite (proj2 (throw_propagates callFn effect (Some "x") s
                         "cleanup failed") 0 [0] eq_refl eq_refl).
Defined.

Lemma attach_throw_registry_unchanged_witness :
  let s := run [attach 3 "x"] start in
  effect 0 (world s) = ([], Throw "effect failed") ∧
  cleanupsMap (refCallback effect (Some 0) (Some "x") s).1 = cleanupsMap s.
Proof.
  intros s. split; [done|].
  exact (attach_throw_registry_unchanged callFn effect 0 (Some "x") s []
           "effect failed" eq_refl).
Defined.

Lemma detach_throw_keeps_entry_witness :
  let s := run [attach 2 "x"] start in
  let s1 := step s (detach "x") in
  let s2 := run [attach 3 "y"] s1 in
  let s3 := step s2 (detach "x") in
  (cleanupsMap s !! "x" = Some 0 ∧
   callFn 0 (world s) = ([0], Throw "cleanup failed") ∧
   Forall (λ c : Call, call_key c ≠ "x") [attach 3 "y"]) ∧
  cleanupsMap s1 = cleanupsMap s ∧
  events_since s2 s3 = [EvCleanup "x" 0 (Throw "cleanup failed")] ∧
  world s3 = [0; 0] ∧
  (refCallback effect None (Some "x") s2).2 = Throw "cleanup failed".
Proof.
  intros s s1 s2 s3.
  assert (Forall (λ c : Call, call_key c ≠ "x") [attach 3 "y"]) as Hmid
    by (repeat constructor; by vm_compute).
  split; [by repeat split|].
  destruct (detach_throw_keeps_entry callFn effect effect (Some "x")
              [attach 3 "y"] s 0 [0] "cleanup failed" eq_refl eq_refl Hmid)
    as (_ & _ & _ & Hmap & _ & Hev & Hw & Hout).
  by repeat split.
Defined.

Lemma attach_undefined_keeps_entry_witness :
  let s := run [attach 3 "x"] start in
  let s1 := step s (attach 1 "x") in
  let s2 := run [attach 4 "y"] s1 in
  let s3 := step s2 (detach "x") in
  (cleanupsMap s !! "x" = Some 7 ∧
   effect 1 (world s) = ([], Normal VUndefined) ∧
   Forall (λ c : Call, call_key c ≠ "x") [attach 4 "y"]) ∧
  cleanupsMap s1 = cleanupsMap s ∧
  events_since s2 s3 = [EvCleanup "x" 7 (Normal tt)] ∧
  world s3 = [7] ∧
  (refCallback effect None (Some "x") s2).2 = Normal tt.
Proof.
  intros s s1 s2 s3.
  assert (Forall (λ c : Call, call_key c ≠ "x") [attach 4 "y"]) as Hmid
    by (repeat constructor; by vm_compute).
  split; [by repeat split|].
  destruct (attach_undefined_keeps_entry callFn effect effect 1 (Some "x")
              [attach 4 "y"] [attach 3 "x"] [] 7 [] eq_refl eq_refl Hmid)
    as (Hmap & Hev & Hw & Hout & _).
  by repeat split.
Defined.



Lemma other_identifiers_untouched_witness :
  let s := run [attach 4 "y"] start in
  ("y" ∉ (call_key <$> [attach 3 "x"; detach "x"])) ∧
  cleanupsMap (run [attach 3 "x"; detach "x"] s) !! "y" = Some 7.
Proof.
  intros s.
  assert ("y" ∉ (call_key <$> [attach 3 "x"; detach "x"])) as Hy.
  { intros H. repeat (apply elem_of_cons in H as [H|H]; [discriminate H|]).
    by apply elem_of_nil in H. }
  split; [done|].
  etrans; [|reflexivity].
  exact (proj1 (other_identifiers_untouched callFn
                  [attach 3 "x"; detach "x"] s) "y" Hy).
Defined.

Lemma attach_detach_round_trip_witness :
  (cleanupsMap start !! "x" = None ∧
   effect 3 (world start) = ([], Normal (VFunction 7)) ∧
   callFn 7 [] = ([7], Normal tt)) ∧
  cleanupsMap (run [attach 3 "x"; detach "x"] start) = cleanupsMap start ∧
  world (run [attach 3 "x"; detach "x"] start) = [7].
Proof.
  split; [by repeat split|].
  destruct (attach_detach_round_trip callFn effect effect 3 (Some "x") start
              7 [] [7] eq_refl eq_refl eq_refl) as (Hmap & Hw & _).
  by split.
Defined.

Lemma second_detach_noop_witness :
  let s := run [attach 3 "x"] start in
  let s2 := run [attach 4 "y"] (step s (detach "x")) in
  (cleanupsMap s !! "x" = Some 7 ∧ (callFn 7 (world s)).2 = Normal tt ∧
   Forall (λ c : Call, call_key c ≠ "x") [attach 4 "y"]) ∧
  refCallback effect None (Some "x") s2 = (s2, Normal tt).
Proof.
  intros s s2.
  assert (Forall (λ c : Call, call_key c ≠ "x") [attach 4 "y"]) as Hmid
    by (repeat constructor; by vm_compute).
  split; [by repeat split|].
  apply (second_detach_noop callFn effect effect (Some "x") [attach 4 "y"] s);
    [|done].
  by intros f [= <-].
Defined.

Lemma effects_without_cleanup_witness :
  let cs := [mkCall position_child (Some 3) None;
             mkCall position_child None None;
             mkCall position_child (Some 4) None] in
  Forall (λ c : Call, never_returns_function (call_effect_of c)) cs ∧
  cleanupsMap (run cs start) = ∅.
Proof.
  intros cs.
  assert (Forall (λ c : Call, never_returns_function (call_effect_of c)) cs)
    as Hcs by (repeat constructor; by intros n w f).
  split; [done|]. by apply (effects_without_cleanup callFn cs []).
Defined.

Lemma distinct_identifiers_never_cleaned_witness :
  let cs := [attach 3 "a"; detach "b"; attach 4 "c"; detach "d"] in
  NoDup (call_key <$> cs) ∧
  count_events is_cleanup_event (trace (run cs start)) = 0 ∧
  cleanupsMap (run cs start) !! "a" = Some 7.
Proof.
  intros cs.
  assert (NoDup (call_key <$> cs)) as Hnd
    by (by apply (bool_decide_unpack _)).
  split; [done|].
  destruct (distinct_identifiers_never_cleaned callFn cs [] Hnd) as [Hc Hreg].
  split; [done|]. apply (Hreg "a" 3 7). by left.
Defined.

Lemma cleanup_provenance_witness :
  trace (run [attach 3 "x"; detach "x"] start) =
    [EvEffect "x" 3 (Normal (VFunction 7))] ++
    EvCleanup "x" 7 (Normal tt) :: [] ∧
  pending_entry "x" 7
    [EvEffect "x" 3 (Normal (VFunction 7)) : @Event nat string].
Proof.
  split; [done|].
  by apply (cleanup_provenance callFn [attach 3 "x"; detach "x"] []
              [EvEffect "x" 3 (Normal (VFunction 7))] "x" 7 (Normal tt) []).
Defined.

Lemma detach_then_attach_witness :
  let s := run [attach 3 "x"] start in
  let s2 := run [detach "x"; attach 5 "x"] s in
  (cleanupsMap s !! "x" = Some 7 ∧
   callFn 7 (world s) = ([7], Normal tt) ∧
   effect 5 [7] = ([7], Normal (VFunction 8))) ∧
  events_since s s2 =
    [EvCleanup "x" 7 (Normal tt); EvEffect "x" 5 (Normal (VFunction 8))] ∧
  cleanupsMap s2 = <[ "x" := 8 ]> (cleanupsMap s).
Proof.
  intros s s2. split; [by repeat split|].
  destruct (detach_then_attach callFn effect effect 5 (Some "x") s 7 [7] 8 [7]
              eq_refl eq_refl eq_refl) as (Hev & Hmap & _).
  by split.
Defined.

End Instances.
